(** * sanctuary-argv: the argument parser of src/index.js

    A shallow embedding of [names] and [parseArgs] and the properties of
    the scan they implement.

    Modelling conventions.
    - A JavaScript string is a [string]; one [ascii] stands for one code
      unit.  The two regular expressions of [names] have no [u] flag, so
      they work code unit by code unit and only ever compare a unit with
      the hyphen.
    - The specification (a StrMap, looked up with [propertyIsEnumerable]
      and then [spec[name]]) is a [gmap string (Handler A)].
    - sanctuary-either's [Left]/[Right] are the constructors of [Either];
      [isLeft] and [value] become pattern matching.
    - The configuration type is a type parameter [A]; the run-time type
      checks of sanctuary-def are the typing of the embedding. *)

From Stdlib Require Import String Ascii.
From stdpp Require Import base strings list gmap.


(* ===================================================================== *)
(** ** Data model *)

Inductive Either (L R : Type) : Type :=
| Left (l : L)
| Right (r : R).
Arguments Left {L R} l.
Arguments Right {L R} r.

(** The three type aliases of the source.
    [Setter a = a -> a],
    [Validator a = String -> Either String (Setter a)],
    [Handler a = Either (Setter a) (Validator a)]. *)
Abbreviation Setter A := (A -> A) (only parsing).
Abbreviation Validator A := (string -> Either string (Setter A)) (only parsing).
Abbreviation Handler A := (Either (Setter A) (Validator A)) (only parsing).

(** [Flag] is an alias for [Left], [Option] an alias for [Right]. *)
Definition Flag {A : Type} : Setter A -> Handler A := Left.
Definition Option {A : Type} : Validator A -> Handler A := Right.

Definition Pair {A B : Type} (a : A) (b : B) : A * B := (a, b).

(** What [parseArgs] returns: [Either String (Pair a (Array String))]. *)
Definition Result (A : Type) : Type := Either string (A * list string).

(* ===================================================================== *)
(** ** [names] *)

Definition hyphen : ascii := "-"%char.

(** [s.startsWith (p)] *)
Definition startsWith (s p : string) : bool := String.prefix p s.

(** [arg.replace (/(?:)/g, '-')]: the empty pattern matches before every
    code unit and at the end of the string. *)
Fixpoint insert_hyphens (s : string) : string :=
  match s with
  | EmptyString => String hyphen EmptyString
  | String c s' => String hyphen (String c (insert_hyphens s'))
  end.

(** The matches of [/-[^-]/g], left to right and without overlap: at a
    hyphen followed by a non-hyphen the two units are one match and the
    search resumes after them; anywhere else it moves on by one unit. *)
Fixpoint match_hyphen_other (s : string) : list string :=
  match s with
  | EmptyString => []
  | String c s' =>
      match s' with
      | EmptyString => []
      | String d s'' =>
          if Ascii.eqb c hyphen && negb (Ascii.eqb d hyphen)
          then String c (String d EmptyString) :: match_hyphen_other s''
          else match_hyphen_other s'
      end
  end.

(** [String.prototype.match] with a global pattern: [null] (here [None])
    when nothing matches, the array of matches otherwise. *)
Definition js_match (s : string) : option (list string) :=
  match match_hyphen_other s with
  | [] => None
  | ms => Some ms
  end.

Definition names (arg : string) : option (list string) :=
  if startsWith arg "--"
  then Some [arg]
  else js_match (insert_hyphens arg).

(* ===================================================================== *)
(** ** [parseArgs] *)

(** How one run of the inner [for ... of] loop ends. *)
Inductive step (A : Type) : Type :=
| Break (e : Result A)            (* a [return] inside the loop body *)
| Crash                           (* an access past the end of [args] *)
| Continue (conf : A) (idx : nat) (* the names are exhausted *).
Arguments Break {A} e.
Arguments Crash {A}.
Arguments Continue {A} conf idx.

(** How a call ends. [Stuck] stands for what JavaScript does when
    [args[idx]] is [undefined] or [names] gives [null]: a TypeError, or
    [undefined] handed to a Validator.  [OutOfFuel] belongs to the
    embedding of the unbounded [for (;;)] only. *)
Inductive completion (R : Type) : Type :=
| Returned (r : R)
| Stuck
| OutOfFuel.
Arguments Returned {R} r.
Arguments Stuck {R}.
Arguments OutOfFuel {R}.

Section ParseArgs.

Context {A : Type}.
Variable spec : gmap string (Handler A).
Variable args : list string.

(** [for (const name of names (args[idx])) { ... }], the loop variables
    [conf] and [idx] passed as state. *)
Fixpoint names_loop (ns : list string) (conf : A) (idx : nat) : step A :=
  match ns with
  | [] => Continue conf idx
  | name :: ns' =>
      match spec !! name with
      | None => Break (Left (name +:+ " is unrecognized"))
      | Some (Left f) => names_loop ns' (f conf) idx
      | Some (Right g) =>
          let idx := idx + 1 in
          if idx =? length args
          then Break (Left (name +:+ " requires a value"))
          else
            match args !! idx with
            | None => Crash
            | Some value =>
                match g value with
                | Left msg => Break (Left msg)
                | Right f => names_loop ns' (f conf) idx
                end
            end
      end
  end.

(** [for (let conf = init, either, idx = 0; ; idx += 1) { ... }] *)
Fixpoint parseArgs_loop (fuel : nat) (conf : A) (idx : nat)
  : completion (Result A) :=
  match fuel with
  | O => OutOfFuel
  | S fuel' =>
      if idx =? length args
      then Returned (Right (Pair conf []))
      else
        match args !! idx with
        | None => Stuck
        | Some arg =>
            if String.eqb arg "-"
            then Returned (Left "- is not a valid flag or option name")
            else if String.eqb arg "--"
            then Returned (Right (Pair conf (drop (idx + 1) args)))
            else if negb (startsWith arg "-")
            then Returned (Right (Pair conf (drop idx args)))
            else
              match names arg with
              | None => Stuck
              | Some ns =>
                  match names_loop ns conf idx with
                  | Break e => Returned e
                  | Crash => Stuck
                  | Continue conf' idx' =>
                      parseArgs_loop fuel' conf' (idx' + 1)
                  end
              end
        end
  end.

End ParseArgs.

(** Every turn of the outer loop moves [idx] forward, so one turn per
    argument and one more to see the end are enough
    ([parseArgs_loop_fuel]). *)
Definition parseArgs {A : Type} (spec : gmap string (Handler A))
    (p : A * list string) : completion (Result A) :=
  let '(init, args) := p in
  parseArgs_loop spec args (S (length args)) init 0.

(* ===================================================================== *)
(** ** The specification of the test suite (src/test/index.js) *)

Module Example.

Record Options : Type := mkOptions {
  color : bool;
  email : option string;
  words : list string
}.

Definition defaultOptions : Options := mkOptions false None [].

Fixpoint includes (c : ascii) (s : string) : bool :=
  match s with
  | EmptyString => false
  | String d s' => Ascii.eqb c d || includes c s'
  end.

(** [show] of a string (sanctuary-show) is [JSON.stringify]: the string
    between double quotes, with the double quote and the backslash
    preceded by a backslash, the control characters below 32 written
    [\b], [\t], [\n], [\f], [\r] or [\u00xx] (lower-case hexadecimal),
    and every other unit as it is. *)
Definition dquote : string := String (ascii_of_nat 34) EmptyString.

Definition hex_digit (n : nat) : ascii :=
  match String.get n "0123456789abcdef" with
  | Some c => c
  | None => "0"%char
  end.

Definition escape (c : ascii) : string :=
  let n := nat_of_ascii c in
  if n =? 8 then "\b"
  else if n =? 9 then "\t"
  else if n =? 10 then "\n"
  else if n =? 12 then "\f"
  else if n =? 13 then "\r"
  else if n =? 34 then "\" +:+ dquote
  else if n =? 92 then "\\"
  else if n <? 32
  then "\u00" +:+ String (hex_digit (n / 16)) (String (hex_digit (n mod 16)) "")
  else String c "".

Fixpoint escape_all (s : string) : string :=
  match s with
  | EmptyString => EmptyString
  | String c s' => escape c +:+ escape_all s'
  end.

Definition show (s : string) : string := dquote +:+ escape_all s +:+ dquote.

Definition color_handler : Handler Options :=
  Flag (fun o => mkOptions true (email o) (words o)).

Definition email_handler : Handler Options :=
  Option (fun e =>
    if includes "@"%char e
    then Right (fun o => mkOptions (color o) (Some e) (words o))
    else Left (show e +:+ " is not a valid email address")).

Definition words_handler : Handler Options :=
  Option (fun w =>
    Right (fun o => mkOptions (color o) (email o) (words o ++ [w]))).

Definition updaters : gmap string (Handler Options) :=
  <["-c" := color_handler]> (
  <["--color" := color_handler]> (
  <["--colour" := color_handler]> (
  <["-e" := email_handler]> (
  <["--email" := email_handler]> (
  <["-w" := words_handler]> (
  <["--word" := words_handler]> ∅)))))).

Definition parse (args : list string) : completion (Result Options) :=
  parseArgs updaters (Pair defaultOptions args).

End Example.

(* ===================================================================== *)
(** ** The scan seen from the argument list (spec.md, 4.1 and 4.2)

    The definitions of this part follow the words of the specification;
    the theorems compare them with [parseArgs]. *)

(** A token that step 5 of the scan expands and looks up: it starts with
    a hyphen and is neither the lone dash nor the separator. *)
Definition is_name_token (t : string) : bool :=
  negb (String.eqb t "-") && negb (String.eqb t "--") && startsWith t "-".

(** The short name of one character. *)
Definition short_name (c : ascii) : string := String hyphen (String c EmptyString).

(** The characters of a string that are not hyphens, in order. *)
Definition non_hyphens (s : string) : list ascii :=
  filter (fun c => Ascii.eqb c hyphen = false) (list_ascii_of_string s).

Definition apply_setters {A : Type} (fs : list (Setter A)) (conf : A) : A :=
  foldl (fun c f => f c) conf fs.

Section Scan.

Context {A : Type}.
Variable spec : gmap string (Handler A).

Definition is_option (name : string) : bool :=
  match spec !! name with
  | Some (Right _) => true
  | _ => false
  end.

(** Steps 5a to 5c: the names of one token are looked up in order
    against the arguments [rest] that follow the token; the result is
    the first error, or the new configuration and the arguments left. *)
Fixpoint dispatch (ns : list string) (conf : A) (rest : list string)
  : Either string (A * list string) :=
  match ns with
  | [] => Right (conf, rest)
  | name :: ns' =>
      match spec !! name with
      | None => Left (name +:+ " is unrecognized")
      | Some (Left f) => dispatch ns' (f conf) rest
      | Some (Right g) =>
          match rest with
          | [] => Left (name +:+ " requires a value")
          | value :: rest' =>
              match g value with
              | Left msg => Left msg
              | Right f => dispatch ns' (f conf) rest'
              end
          end
      end
  end.

(** [Accepts ns vs fs]: every name of [ns] is in the specification, the
    Options among them take the values [vs], one each and in order,
    every Validator accepts its value, and [fs] are the Setters to
    apply, in order. *)
Inductive Accepts : list string -> list string -> list (Setter A) -> Prop :=
| Accepts_nil :
    Accepts [] [] []
| Accepts_flag name f ns vs fs :
    spec !! name = Some (Flag f) ->
    Accepts ns vs fs ->
    Accepts (name :: ns) vs (f :: fs)
| Accepts_option name g value f ns vs fs :
    spec !! name = Some (Option g) ->
    g value = Right f ->
    Accepts ns vs fs ->
    Accepts (name :: ns) (value :: vs) (f :: fs).

(** [Scans conf xs conf']: the top-level scan started with [conf] goes
    through all of [xs] (name tokens, each followed by the values of its
    Options) and arrives behind [xs] with [conf']. *)
Inductive Scans : A -> list string -> A -> Prop :=
| Scans_nil conf :
    Scans conf [] conf
| Scans_token conf t ns vs fs xs conf' :
    is_name_token t = true ->
    names t = Some ns ->
    Accepts ns vs fs ->
    Scans (apply_setters fs conf) xs conf' ->
    Scans conf (t :: vs ++ xs) conf'.

(** The three ways a looked-up name fails, [rest] being the arguments
    not yet consumed when the name is looked up. *)
Definition name_error (name : string) (rest : list string) (msg : string)
  : Prop :=
  (spec !! name = None /\ msg = name +:+ " is unrecognized")
  \/ (exists g, spec !! name = Some (Option g) /\ rest = []
               /\ msg = name +:+ " requires a value")
  \/ (exists g value rest', spec !! name = Some (Option g)
               /\ rest = value :: rest' /\ g value = Left msg).

(** The three ways the scan ends well behind a scanned prefix [xs]: the
    arguments are exhausted, the separator is next, or a token that does
    not start with a hyphen is next. *)
Definition stops_well (args xs pos : list string) : Prop :=
  (args = xs /\ pos = [])
  \/ args = xs ++ "--" :: pos
  \/ (args = xs ++ pos
      /\ exists t rest, pos = t :: rest /\ startsWith t "-" = false).

(** The first error of the scan of [args] started with [init]: the scan
    goes through a prefix [xs] and then meets the lone dash, or a token
    whose names [pre] are accepted and whose next name fails. *)
Definition first_error (init : A) (args : list string) (msg : string)
  : Prop :=
  exists xs conf, Scans init xs conf /\
    ((exists rest, args = xs ++ "-" :: rest
                   /\ msg = "- is not a valid flag or option name")
     \/ (exists t pre name post vs fs rest,
            args = xs ++ t :: vs ++ rest
            /\ is_name_token t = true
            /\ names t = Some (pre ++ name :: post)
            /\ Accepts pre vs fs
            /\ name_error name rest msg)).

End Scan.

(* ===================================================================== *)
(** ** Properties of [names] *)

Lemma startsWith_hyphen t :
  startsWith t "-" = true -> exists s, t = String hyphen s.
Proof.
  unfold startsWith. destruct t as [|c s]; cbn [String.prefix]; [done|].
  destruct (ascii_dec "-" c) as [<-|]; [eauto|done].
Qed.

Lemma startsWith_hyphen2 c s :
  startsWith (String hyphen (String c s)) "--" = Ascii.eqb c hyphen.
Proof.
  unfold startsWith, hyphen. cbn [String.prefix].
  destruct (ascii_dec "-" "-") as [_|]; [|done].
  destruct (ascii_dec "-" c) as [<-|Hc]; [by destruct s|].
  symmetry. apply Ascii.eqb_neq. congruence.
Qed.

Lemma startsWith_hyphen_false t :
  startsWith t "-" = false ->
  String.eqb t "-" = false /\ String.eqb t "--" = false.
Proof.
  intros Ht. split; apply String.eqb_neq; intros ->; by vm_compute in Ht.
Qed.

Lemma match_hyphen_other_skip s :
  match_hyphen_other (String hyphen (insert_hyphens s))
  = match_hyphen_other (insert_hyphens s).
Proof. by destruct s. Qed.

Lemma non_hyphens_cons c s :
  non_hyphens (String c s)
  = if Ascii.eqb c hyphen then non_hyphens s else c :: non_hyphens s.
Proof.
  unfold non_hyphens. cbn [list_ascii_of_string].
  destruct (Ascii.eqb c hyphen) eqn:Hc.
  - by rewrite filter_cons_False by (rewrite Hc; done).
  - by rewrite filter_cons_True.
Qed.

(** The matches of [/-[^-]/g] in the string with hyphens inserted are
    the short names of the non-hyphen characters, in order. *)
Lemma match_hyphen_other_insert s :
  match_hyphen_other (insert_hyphens s) = map short_name (non_hyphens s).
Proof.
  induction s as [|c s IH]; [done|].
  rewrite non_hyphens_cons. cbn [insert_hyphens match_hyphen_other].
  change (Ascii.eqb hyphen hyphen) with true. cbn [andb].
  destruct (Ascii.eqb c hyphen) eqn:Hc; cbn [negb].
  - apply Ascii.eqb_eq in Hc as ->. rewrite <- IH.
    exact (match_hyphen_other_skip s).
  - by rewrite IH.
Qed.

Lemma names_long t : startsWith t "--" = true -> names t = Some [t].
Proof. unfold names. by intros ->. Qed.

Lemma names_short t :
  startsWith t "--" = false ->
  names t = match map short_name (non_hyphens t) with
            | [] => None
            | ms => Some ms
            end.
Proof.
  unfold names, js_match. intros ->. by rewrite match_hyphen_other_insert.
Qed.

Lemma is_name_token_inv t :
  is_name_token t = true ->
  (startsWith t "--" = true /\ names t = Some [t])
  \/ (exists c s, t = String hyphen (String c s) /\ Ascii.eqb c hyphen = false).
Proof.
  unfold is_name_token. rewrite !andb_true_iff, !negb_true_iff.
  intros [[H1 H2] H3].
  destruct (startsWith_hyphen _ H3) as [s ->].
  destruct s as [|c s]; [done|].
  destruct (Ascii.eqb c hyphen) eqn:Hc.
  - left. rewrite <- (startsWith_hyphen2 c s) in Hc. auto using names_long.
  - right; eauto.
Qed.

Lemma short_name_token c :
  Ascii.eqb c hyphen = false ->
  is_name_token (short_name c) = true /\ names (short_name c) = Some [short_name c].
Proof.
  intros Hc. split.
  - unfold is_name_token, short_name. cbn [String.eqb].
    change (c =? "-")%char with (c =? hyphen)%char. rewrite Hc.
    change (hyphen =? "-")%char with true. cbn [negb andb].
    unfold startsWith, hyphen. cbn [String.prefix].
    by destruct (ascii_dec "-" "-").
  - rewrite names_short by (unfold short_name; by rewrite startsWith_hyphen2).
    unfold short_name. rewrite !non_hyphens_cons. cbn. by rewrite Hc.
Qed.

(** A name token always expands: [names] gives [null] on no token that
    [parseArgs] passes to it. *)
Lemma names_is_Some t :
  is_name_token t = true -> exists name ns, names t = Some (name :: ns).
Proof.
  intros [[_ ->]|(c & s & -> & Hc)]%is_name_token_inv; [eauto|].
  rewrite names_short by by rewrite startsWith_hyphen2.
  rewrite !non_hyphens_cons, Hc.
  change (Ascii.eqb hyphen hyphen) with true. cbn [map]. eauto.
Qed.

(** Every expanded name is itself a name token that expands to itself. *)
Lemma names_singletons t ns :
  is_name_token t = true ->
  names t = Some ns ->
  Forall (fun n => is_name_token n = true /\ names n = Some [n]) ns.
Proof.
  intros Ht Hns.
  destruct (is_name_token_inv _ Ht) as [[_ Hl]|(c & s & -> & Hc)].
  - rewrite Hl in Hns. injection Hns as <-. by repeat constructor.
  - rewrite names_short in Hns by by rewrite startsWith_hyphen2.
    assert (ns = map short_name (non_hyphens (String hyphen (String c s)))) as ->.
    { destruct (map short_name _); congruence. }
    apply Forall_forall. intros n (d & -> & Hd)%list_elem_of_fmap.
    apply short_name_token.
    unfold non_hyphens in Hd. by apply list_elem_of_filter in Hd as [? _].
Qed.

(* ===================================================================== *)
(** ** The loops and the argument list *)

Section Loops.

Context {A : Type}.
Variable spec : gmap string (Handler A).

(** The inner loop entered at [idx] does to [args] what [dispatch] does
    to the arguments after [idx]; it never reads past the end. *)
Lemma names_loop_dispatch args ns conf idx :
  idx < length args ->
  match dispatch spec ns conf (drop (S idx) args) with
  | Left msg => names_loop spec args ns conf idx = Break (Left msg)
  | Right (conf', rest') =>
      exists idx',
        names_loop spec args ns conf idx = Continue conf' idx'
        /\ idx <= idx' < length args
        /\ rest' = drop (S idx') args
  end.
Proof.
  revert conf idx.
  induction ns as [|name ns IH]; intros conf idx Hidx;
    cbn [dispatch names_loop].
  - exists idx. repeat split; lia || done.
  - destruct (spec !! name) as [[f|g]|]; [by apply IH| |done].
    cbn zeta. destruct (Nat.eqb_spec (idx + 1) (length args)) as [Heq|Hne].
    + by rewrite drop_ge by lia.
    + destruct (lookup_lt_is_Some_2 args (idx + 1)) as [v Hv]; [lia|].
      rewrite Hv. replace (S idx) with (idx + 1) by lia.
      rewrite (drop_S _ _ _ Hv).
      destruct (g v) as [msg|f]; [done|].
      specialize (IH (f conf) (idx + 1) ltac:(lia)).
      destruct (dispatch spec ns (f conf) (drop (S (idx + 1)) args))
        as [msg|[conf' rest']]; [done|].
      destruct IH as (idx' & ? & ? & ?). exists idx'.
      repeat split; lia || done.
Qed.

Lemma names_loop_Continue args ns conf idx conf' idx' :
  idx < length args ->
  names_loop spec args ns conf idx = Continue conf' idx' ->
  idx <= idx' < length args.
Proof.
  intros Hidx Hloop. pose proof (names_loop_dispatch args ns conf idx Hidx) as H.
  destruct (dispatch spec ns conf (drop (S idx) args)) as [msg|[c r]].
  - congruence.
  - destruct H as (i & Hi & ? & _). rewrite Hloop in Hi. by simplify_eq.
Qed.

Lemma names_loop_no_Crash args ns conf idx :
  idx < length args -> names_loop spec args ns conf idx <> Crash.
Proof.
  intros Hidx. pose proof (names_loop_dispatch args ns conf idx Hidx) as H.
  destruct (dispatch spec ns conf (drop (S idx) args)) as [msg|[c r]].
  - congruence.
  - destruct H as (i & Hi & _). congruence.
Qed.

(** The outer loop at [idx] sees only the arguments from [idx] on. *)
Lemma parseArgs_loop_drop fuel args conf idx :
  idx <= length args ->
  parseArgs_loop spec args fuel conf idx
  = parseArgs_loop spec (drop idx args) fuel conf 0.
Proof.
  revert args conf idx.
  induction fuel as [|fuel IH]; intros args conf idx Hidx; [done|].
  cbn [parseArgs_loop].
  destruct (Nat.eqb_spec idx (length args)) as [->|Hne].
  { by rewrite drop_all. }
  destruct (lookup_lt_is_Some_2 args idx) as [arg Harg]; [lia|].
  assert (drop idx args !! 0 = Some arg) as H0
    by (by rewrite lookup_drop, Nat.add_0_r).
  assert ((0 =? length (drop idx args)) = false) as ->
    by (apply Nat.eqb_neq; rewrite length_drop; lia).
  rewrite Harg, H0, drop_0, drop_drop.
  destruct (String.eqb arg "-"); [done|].
  destruct (String.eqb arg "--"); [done|].
  destruct (negb (startsWith arg "-")); [done|].
  destruct (names arg) as [ns|]; [|done].
  pose proof (names_loop_dispatch args ns conf idx ltac:(lia)) as H1.
  pose proof (names_loop_dispatch (drop idx args) ns conf 0) as H2.
  rewrite length_drop, drop_drop in H2.
  replace (idx + 1) with (S idx) in H2 by lia.
  specialize (H2 ltac:(lia)).
  destruct (dispatch spec ns conf (drop (S idx) args)) as [msg|[conf' rest']].
  { by rewrite H1, H2. }
  destruct H1 as (i1 & -> & ? & Hr1), H2 as (i2 & -> & ? & Hr2).
  rewrite drop_drop in Hr2.
  rewrite (IH args) by lia.
  rewrite (IH (drop idx args)) by (rewrite length_drop; lia).
  rewrite drop_drop. f_equal.
  replace (i1 + 1) with (S i1) by lia.
  replace (idx + (i2 + 1)) with (idx + S i2) by lia. congruence.
Qed.

(** Fuel beyond the number of arguments left changes nothing. *)
Lemma parseArgs_loop_fuel fuel fuel' args conf idx :
  idx <= length args ->
  length args - idx < fuel ->
  length args - idx < fuel' ->
  parseArgs_loop spec args fuel conf idx
  = parseArgs_loop spec args fuel' conf idx.
Proof.
  revert fuel' conf idx.
  induction fuel as [|fuel IH]; intros [|fuel'] conf idx Hidx Hf Hf';
    [lia..|].
  cbn [parseArgs_loop].
  destruct (Nat.eqb_spec idx (length args)) as [->|Hne]; [done|].
  destruct (args !! idx) as [arg|]; [|done].
  destruct (String.eqb arg "-"); [done|].
  destruct (String.eqb arg "--"); [done|].
  destruct (negb (startsWith arg "-")); [done|].
  destruct (names arg) as [ns|]; [|done].
  destruct (names_loop spec args ns conf idx) as [e| |conf' idx'] eqn:Hl;
    [done..|].
  apply names_loop_Continue in Hl; [|lia].
  apply IH; lia.
Qed.

Lemma parseArgs_loop_S fuel args conf idx :
  parseArgs_loop spec args (S fuel) conf idx =
    if idx =? length args
    then Returned (Right (Pair conf []))
    else
      match args !! idx with
      | None => Stuck
      | Some arg =>
          if String.eqb arg "-"
          then Returned (Left "- is not a valid flag or option name")
          else if String.eqb arg "--"
          then Returned (Right (Pair conf (drop (idx + 1) args)))
          else if negb (startsWith arg "-")
          then Returned (Right (Pair conf (drop idx args)))
          else
            match names arg with
            | None => Stuck
            | Some ns =>
                match names_loop spec args ns conf idx with
                | Break e => Returned e
                | Crash => Stuck
                | Continue conf' idx' =>
                    parseArgs_loop spec args fuel conf' (idx' + 1)
                end
            end
      end.
Proof. done. Qed.

(** One turn of the scan: [parseArgs] on a non-empty argument list. *)
Lemma parseArgs_cons conf t rest :
  parseArgs spec (conf, t :: rest) =
    if String.eqb t "-"
    then Returned (Left "- is not a valid flag or option name")
    else if String.eqb t "--" then Returned (Right (conf, rest))
    else if negb (startsWith t "-") then Returned (Right (conf, t :: rest))
    else
      match names t with
      | None => Stuck
      | Some ns =>
          match dispatch spec ns conf rest with
          | Left msg => Returned (Left msg)
          | Right (conf', rest') => parseArgs spec (conf', rest')
          end
      end.
Proof.
  unfold parseArgs at 1. rewrite parseArgs_loop_S.
  change (0 =? length (t :: rest)) with false.
  change ((t :: rest) !! 0) with (Some t).
  change (drop (0 + 1) (t :: rest)) with rest.
  change (drop 0 (t :: rest)) with (t :: rest). cbv beta iota.
  destruct (String.eqb t "-"); [done|].
  destruct (String.eqb t "--"); [done|].
  destruct (negb (startsWith t "-")); [done|].
  destruct (names t) as [ns|]; [|done].
  pose proof (names_loop_dispatch (t :: rest) ns conf 0) as H.
  change (drop 1 (t :: rest)) with rest in H.
  specialize (H ltac:(cbn [length]; lia)).
  destruct (dispatch spec ns conf rest) as [msg|[conf' rest']].
  { by rewrite H. }
  destruct H as (idx' & -> & Hidx' & ->). cbn [length] in Hidx'.
  unfold parseArgs. replace (idx' + 1) with (S idx') by lia.
  rewrite parseArgs_loop_drop by (cbn [length]; lia).
  apply parseArgs_loop_fuel; rewrite ?length_drop; cbn [length]; lia.
Qed.

Lemma parseArgs_nil conf : parseArgs spec (conf, []) = Returned (Right (conf, [])).
Proof. done. Qed.

Lemma is_name_token_tests t :
  is_name_token t = true ->
  String.eqb t "-" = false /\ String.eqb t "--" = false
  /\ negb (startsWith t "-") = false.
Proof.
  unfold is_name_token. rewrite !andb_true_iff, !negb_true_iff.
  intros [[-> ->] ->]. done.
Qed.

(** One turn of the scan at a name token. *)
Lemma parseArgs_token conf t ns rest :
  is_name_token t = true ->
  names t = Some ns ->
  parseArgs spec (conf, t :: rest) =
    match dispatch spec ns conf rest with
    | Left msg => Returned (Left msg)
    | Right (conf', rest') => parseArgs spec (conf', rest')
    end.
Proof.
  intros (H1 & H2 & H3)%is_name_token_tests Hns.
  by rewrite parseArgs_cons, H1, H2, H3, Hns.
Qed.

End Loops.

(* ===================================================================== *)
(** ** [dispatch], [Accepts] and [Scans] *)

Section ScanFacts.

Context {A : Type}.
Variable spec : gmap string (Handler A).

Lemma apply_setters_cons (f : Setter A) fs conf :
  apply_setters (f :: fs) conf = apply_setters fs (f conf).
Proof. done. Qed.

Lemma dispatch_app ns1 ns2 conf rest :
  dispatch spec (ns1 ++ ns2) conf rest =
    match dispatch spec ns1 conf rest with
    | Left msg => Left msg
    | Right (conf', rest') => dispatch spec ns2 conf' rest'
    end.
Proof.
  revert conf rest. induction ns1 as [|name ns1 IH]; intros conf rest; [done|].
  cbn [app dispatch].
  destruct (spec !! name) as [[f|g]|]; [done| |done].
  destruct rest as [|v rest]; [done|]. by destruct (g v).
Qed.

Lemma dispatch_Accepts ns vs fs conf rest :
  Accepts spec ns vs fs ->
  dispatch spec ns conf (vs ++ rest) = Right (apply_setters fs conf, rest).
Proof.
  intros H. revert conf.
  induction H as [|name f ns vs fs Hn _ IH|name g v f ns vs fs Hn Hg _ IH];
    intros conf; cbn [dispatch app]; [done|..].
  - unfold Flag in Hn. by rewrite Hn, IH.
  - unfold Option in Hn. by rewrite Hn, Hg, IH.
Qed.

Lemma dispatch_Right_inv ns conf rest conf' rest' :
  dispatch spec ns conf rest = Right (conf', rest') ->
  exists vs fs,
    Accepts spec ns vs fs /\ rest = vs ++ rest'
    /\ conf' = apply_setters fs conf.
Proof.
  revert conf rest.
  induction ns as [|name ns IH]; intros conf rest; cbn [dispatch].
  - intros [= <- <-]. exists [], []. by repeat constructor.
  - destruct (spec !! name) as [[f|g]|] eqn:Hn; [| |done].
    + intros (vs & fs & ? & -> & ->)%IH.
      exists vs, (f :: fs). split; [by econstructor|done].
    + destruct rest as [|v rest]; [done|].
      destruct (g v) as [msg|f] eqn:Hg; [done|].
      intros (vs & fs & ? & -> & ->)%IH.
      exists (v :: vs), (f :: fs). split; [by eapply Accepts_option|done].
Qed.

Lemma dispatch_Left_inv ns conf rest msg :
  dispatch spec ns conf rest = Left msg ->
  exists pre name post vs fs rest',
    ns = pre ++ name :: post /\ rest = vs ++ rest'
    /\ Accepts spec pre vs fs /\ name_error spec name rest' msg.
Proof.
  revert conf rest.
  induction ns as [|name ns IH]; intros conf rest; cbn [dispatch]; [done|].
  destruct (spec !! name) as [[f|g]|] eqn:Hn.
  - intros (pre & n & post & vs & fs & rest' & -> & -> & ? & ?)%IH.
    exists (name :: pre), n, post, vs, (f :: fs), rest'.
    repeat split; [by econstructor|done].
  - destruct rest as [|v rest].
    { intros [= <-]. exists [], name, ns, [], [], [].
      repeat split; [constructor|]. right; left. by exists g. }
    destruct (g v) as [msg'|f] eqn:Hg.
    { intros [= <-]. exists [], name, ns, [], [], (v :: rest).
      repeat split; [constructor|]. right; right. by exists g, v, rest. }
    intros (pre & n & post & vs & fs & rest' & -> & -> & ? & ?)%IH.
    exists (name :: pre), n, post, (v :: vs), (f :: fs), rest'.
    repeat split; [by eapply Accepts_option|done].
  - intros [= <-]. exists [], name, ns, [], [], rest.
    repeat split; [constructor|]. by left.
Qed.

Lemma dispatch_name_error name post conf rest msg :
  name_error spec name rest msg ->
  dispatch spec (name :: post) conf rest = Left msg.
Proof.
  unfold name_error, Option. cbn [dispatch].
  intros [[-> ->]|[(g & -> & -> & ->)|(g & v & rest' & -> & -> & Hg)]];
    [done..|].
  by rewrite Hg.
Qed.

Lemma dispatch_Left pre name post vs fs conf rest msg :
  Accepts spec pre vs fs ->
  name_error spec name rest msg ->
  dispatch spec (pre ++ name :: post) conf (vs ++ rest) = Left msg.
Proof.
  intros Hpre Herr.
  rewrite dispatch_app, (dispatch_Accepts _ _ _ _ _ Hpre).
  by apply dispatch_name_error.
Qed.

(** The Options among accepted names take one value each. *)
Lemma Accepts_length ns vs fs :
  Accepts spec ns vs fs ->
  length vs = length (filter (fun n => is_option spec n = true) ns)
  /\ length fs = length ns.
Proof.
  unfold is_option.
  induction 1 as [|name f ns vs fs Hn _ IH|name g v f ns vs fs Hn Hg _ IH];
    [done|..].
  - rewrite filter_cons_False by (by rewrite Hn). cbn [length]. lia.
  - rewrite filter_cons_True by (by rewrite Hn). cbn [length]. lia.
Qed.

(** One turn of the scan at a token whose names are all accepted. *)
Lemma parseArgs_Accepts conf t ns vs fs rest :
  is_name_token t = true ->
  names t = Some ns ->
  Accepts spec ns vs fs ->
  parseArgs spec (conf, t :: vs ++ rest)
  = parseArgs spec (apply_setters fs conf, rest).
Proof.
  intros Ht Hns Hacc.
  by rewrite (parseArgs_token _ _ _ _ _ Ht Hns),
    (dispatch_Accepts _ _ _ _ _ Hacc).
Qed.

(** A scanned prefix only changes the configuration. *)
Lemma parseArgs_Scans init xs conf ys :
  Scans spec init xs conf ->
  parseArgs spec (init, xs ++ ys) = parseArgs spec (conf, ys).
Proof.
  induction 1 as [|conf t ns vs fs xs conf' Ht Hns Hacc _ IH]; [done|].
  cbn [app]. rewrite <- (assoc_L (++)).
  by rewrite (parseArgs_Accepts _ _ _ _ _ _ Ht Hns Hacc).
Qed.

Lemma Scans_parseArgs init xs conf :
  Scans spec init xs conf ->
  parseArgs spec (init, xs) = Returned (Right (conf, [])).
Proof.
  intros H. by rewrite <- (right_id_L [] (++) xs), (parseArgs_Scans _ _ _ [] H).
Qed.

(** Induction on the turns of the scan. *)
Lemma parseArgs_scan_ind (P : A -> list string -> completion (Result A) -> Prop) :
  (forall conf, P conf [] (Returned (Right (conf, [])))) ->
  (forall conf rest,
      P conf ("-" :: rest)
        (Returned (Left "- is not a valid flag or option name"))) ->
  (forall conf rest, P conf ("--" :: rest) (Returned (Right (conf, rest)))) ->
  (forall conf t rest,
      startsWith t "-" = false ->
      P conf (t :: rest) (Returned (Right (conf, t :: rest)))) ->
  (forall conf t pre name post vs fs rest msg,
      is_name_token t = true ->
      names t = Some (pre ++ name :: post) ->
      Accepts spec pre vs fs ->
      name_error spec name rest msg ->
      P conf (t :: vs ++ rest) (Returned (Left msg))) ->
  (forall conf t ns vs fs rest,
      is_name_token t = true ->
      names t = Some ns ->
      Accepts spec ns vs fs ->
      P (apply_setters fs conf) rest
        (parseArgs spec (apply_setters fs conf, rest)) ->
      P conf (t :: vs ++ rest)
        (parseArgs spec (apply_setters fs conf, rest))) ->
  forall conf args, P conf args (parseArgs spec (conf, args)).
Proof.
  intros Hnil Hdash Hsep Hpos Herr Hnext conf args.
  remember (length args) as n eqn:Hn. revert conf args Hn.
  induction n as [n IH] using lt_wf_ind. intros conf [|t rest] Hn.
  { apply Hnil. }
  rewrite parseArgs_cons.
  destruct (String.eqb t "-") eqn:H1.
  { apply String.eqb_eq in H1 as ->. apply Hdash. }
  destruct (String.eqb t "--") eqn:H2.
  { apply String.eqb_eq in H2 as ->. apply Hsep. }
  destruct (startsWith t "-") eqn:H3; cbn [negb]; [|by apply Hpos].
  assert (is_name_token t = true) as Ht
      by (unfold is_name_token; by rewrite H1, H2, H3).
  destruct (names_is_Some t Ht) as (name & ns & Hns). rewrite Hns.
  destruct (dispatch spec (name :: ns) conf rest)
    as [msg|[conf' rest']] eqn:Hd.
  - apply dispatch_Left_inv in Hd
      as (pre & n' & post & vs & fs & rest' & Hsplit & -> & ? & ?).
    rewrite Hsplit in Hns. by eapply Herr.
  - apply dispatch_Right_inv in Hd as (vs & fs & ? & -> & ->).
    eapply Hnext; [done..|].
    eapply IH; [|done]. subst n. cbn [length]. rewrite length_app. lia.
Qed.

End ScanFacts.

(* ===================================================================== *)
(** ** Termination and the shape of the results *)

Section Results.

Context {A : Type}.
Variable spec : gmap string (Handler A).

(** C7. For every specification, initial configuration and argument
    list, [parseArgs] returns a result, an error message or a pair of
    configuration and positional arguments: the loop neither gets stuck
    nor runs out of its [length args + 1] turns, and more turns give the
    same result. *)
Theorem parseArgs_total (init : A) (args : list string) :
  exists r : Result A,
    parseArgs spec (init, args) = Returned r
    /\ forall extra,
         parseArgs_loop spec args (S (length args) + extra) init 0
         = Returned r.
Proof.
  assert (exists r, parseArgs spec (init, args) = Returned r) as [r Hr].
  { apply (parseArgs_scan_ind spec
             (fun _ _ c => exists r, c = Returned r)); eauto. }
  exists r. split; [done|]. intros extra. rewrite <- Hr. unfold parseArgs.
  apply parseArgs_loop_fuel; lia.
Qed.

(** C9. When [parseArgs] succeeds, the positional arguments are a
    suffix of the arguments: nothing when the scan went through all of
    them, what follows the separator the scan stopped at, or the first
    positional token and everything after it. *)
Theorem positionals_are_a_suffix (init conf : A) (args pos : list string) :
  parseArgs spec (init, args) = Returned (Right (conf, pos)) ->
  (exists pre, args = pre ++ pos)
  /\ exists xs, Scans spec init xs conf /\ stops_well args xs pos.
Proof.
  intros Hp.
  assert (exists xs, Scans spec init xs conf /\ stops_well args xs pos)
    as Hxs.
  { revert conf pos Hp.
    apply (parseArgs_scan_ind spec
             (fun init args c => forall conf pos,
                c = Returned (Right (conf, pos)) ->
                exists xs, Scans spec init xs conf
                           /\ stops_well args xs pos)).
    - intros c ? ? [= <- <-]. exists []. split; [constructor|by left].
    - done.
    - intros c rest ? ? [= <- <-]. exists []. split; [constructor|].
      right; by left.
    - intros c t rest Ht ? ? [= <- <-]. exists []. split; [constructor|].
      right; right. split; [done|]. by exists t, rest.
    - done.
    - intros c t ns vs fs rest Ht Hns Hacc IH conf pos Hr.
      destruct (IH _ _ Hr) as (xs & Hxs & Hcase).
      exists (t :: vs ++ xs). split; [by econstructor|].
      unfold stops_well. cbn [app]. rewrite <- !(assoc_L (++)).
      destruct Hcase as [[-> ->]|[->|[-> ?]]]; auto. }
  split; [|done].
  destruct Hxs as (xs & _ & [[-> ->]|[->|[-> _]]]).
  - exists xs. by rewrite (right_id_L [] (++)).
  - exists (xs ++ ["--"]). by rewrite <- (assoc_L (++)).
  - by exists xs.
Qed.

(** C4. [parseArgs] returns an error message exactly when the scan, having
    gone through a prefix of the arguments without error, meets the lone
    dash ("- is not a valid flag or option name") or a token one of whose
    names, the earlier names of the token being accepted, is not in the
    specification ("<name> is unrecognized"), is an Option with no
    argument left ("<name> requires a value") or is an Option whose
    Validator rejects the next argument (the Validator's message). *)
Theorem errors_are_first_errors (init : A) (args : list string) (msg : string) :
  parseArgs spec (init, args) = Returned (Left msg)
  <-> first_error spec init args msg.
Proof.
  split.
  - revert msg.
    apply (parseArgs_scan_ind spec
             (fun init args c => forall msg,
                c = Returned (Left msg) -> first_error spec init args msg)).
    + done.
    + intros c rest ? [= <-]. exists [], c. split; [constructor|].
      left. by exists rest.
    + done.
    + done.
    + intros c t pre name post vs fs rest m Ht Hns Hacc Herr ? [= <-].
      exists [], c. split; [constructor|]. right.
      by exists t, pre, name, post, vs, fs, rest.
    + intros c t ns vs fs rest Ht Hns Hacc IH m Hr.
      destruct (IH _ Hr) as (xs & c' & Hxs & Hcase).
      exists (t :: vs ++ xs), c'. split; [by econstructor|].
      destruct Hcase as [(r & -> & ->)|(t' & pre & name & post & vs' & fs'
                                         & r & -> & ? & ? & ? & ?)].
      * left. exists r. cbn [app]. by rewrite <- (assoc_L (++)).
      * right. exists t', pre, name, post, vs', fs', r.
        cbn [app]. by rewrite <- (assoc_L (++)).
  - intros (xs & conf & Hxs & Hcase).
    destruct Hcase as [(r & -> & ->)|(t & pre & name & post & vs & fs
                                       & r & -> & Ht & Hns & Hacc & Herr)];
      rewrite (parseArgs_Scans _ _ _ _ _ Hxs).
    + by rewrite parseArgs_cons.
    + by rewrite (parseArgs_token _ _ _ _ _ Ht Hns),
        (dispatch_Left _ _ _ _ _ _ _ _ _ Hacc Herr).
Qed.

End Results.

(* ===================================================================== *)
(** ** The turns of the scan *)

Section Turns.

Context {A : Type}.
Variable spec : gmap string (Handler A).

(** C2, amended. When the scan goes through all of [xs] and arrives
    behind it with [conf], [parseArgs] on [xs ++ ["--"] ++ ys] returns
    [conf] and [ys] untouched, whatever [ys] contains. *)
Theorem separator_after_scanned_prefix (init conf : A) (xs ys : list string) :
  Scans spec init xs conf ->
  parseArgs spec (init, xs ++ ["--"] ++ ys) = Returned (Right (conf, ys)).
Proof.
  intros Hxs. rewrite (parseArgs_Scans _ _ _ _ _ Hxs).
  cbn [app]. by rewrite parseArgs_cons.
Qed.

(** C3. The names of one token being accepted, the Options among them
    take the arguments that follow the token as their values, one each
    and in the order of the names, however many Options there are:
    [parseArgs] on the token and the values returns the configuration
    with the Setters applied in order and no positional argument; with a
    token [p] that does not start with a hyphen behind the values it
    returns that configuration and [p] with everything after it; and in
    general the scan goes on behind the last value. *)
Theorem cluster_options_consume_in_order
    (conf : A) (t : string) (ns vs : list string) (fs : list (Setter A))
    (rest : list string) :
  is_name_token t = true ->
  names t = Some ns ->
  Accepts spec ns vs fs ->
  parseArgs spec (conf, t :: vs)
  = Returned (Right (apply_setters fs conf, []))
  /\ (forall p more,
        startsWith p "-" = false ->
        parseArgs spec (conf, t :: vs ++ p :: more)
        = Returned (Right (apply_setters fs conf, p :: more)))
  /\ parseArgs spec (conf, t :: vs ++ rest)
     = parseArgs spec (apply_setters fs conf, rest)
  /\ length vs = length (filter (fun n => is_option spec n = true) ns).
Proof.
  intros Ht Hns Hacc. repeat split.
  - rewrite <- (right_id_L [] (++) vs).
    by rewrite (parseArgs_Accepts _ _ _ _ _ _ [] Ht Hns Hacc).
  - intros p more Hp.
    rewrite (parseArgs_Accepts _ _ _ _ _ _ (p :: more) Ht Hns Hacc).
    rewrite parseArgs_cons, Hp.
    by destruct (startsWith_hyphen_false p Hp) as [-> ->].
  - by apply parseArgs_Accepts with ns.
  - by apply Accepts_length in Hacc as [? _].
Qed.

(** C5. Whatever the token, the position in it of a name that is an
    Option (the names before it being accepted and taking the values
    [vs]), and the shape of the next argument [value]: [value] is handed
    to the Validator as it is and plays no other part; the result is the
    Validator's error, or the rest of the token's names and then the scan
    go on behind [value] with the Setter applied. *)
Theorem option_value_is_opaque
    (conf : A) (t : string) (pre : list string) (name : string)
    (post vs : list string) (fs : list (Setter A)) (g : Validator A)
    (value : string) (rest : list string) :
  is_name_token t = true ->
  names t = Some (pre ++ name :: post) ->
  Accepts spec pre vs fs ->
  spec !! name = Some (Option g) ->
  parseArgs spec (conf, t :: vs ++ value :: rest) =
    match g value with
    | Left msg => Returned (Left msg)
    | Right f =>
        match dispatch spec post (f (apply_setters fs conf)) rest with
        | Left msg => Returned (Left msg)
        | Right (conf', rest') => parseArgs spec (conf', rest')
        end
    end.
Proof.
  intros Ht Hns Hacc Hg. unfold Option in Hg.
  rewrite (parseArgs_token _ _ _ _ _ Ht Hns), dispatch_app.
  rewrite (dispatch_Accepts _ _ _ _ conf (value :: rest) Hacc).
  cbn [dispatch]. rewrite Hg. by destruct (g value).
Qed.

(** C6. When the scan, having gone through [xs], meets a token that does
    not start with a hyphen, [parseArgs] returns the configuration
    reached and that token with everything after it. *)
Theorem first_positional_stops_scan
    (init conf : A) (xs : list string) (t : string) (rest : list string) :
  Scans spec init xs conf ->
  startsWith t "-" = false ->
  parseArgs spec (init, xs ++ t :: rest) = Returned (Right (conf, t :: rest)).
Proof.
  intros Hxs Ht. rewrite (parseArgs_Scans _ _ _ _ _ Hxs), parseArgs_cons, Ht.
  destruct (startsWith_hyphen_false t Ht) as [-> ->]. done.
Qed.

(** C10. The empty string met by the scan is a positional argument. *)
Theorem empty_string_is_positional
    (init conf : A) (xs rest : list string) :
  Scans spec init xs conf ->
  parseArgs spec (init, xs ++ "" :: rest) = Returned (Right (conf, "" :: rest)).
Proof.
  intros Hxs. by rewrite (parseArgs_Scans _ _ _ _ _ Hxs), parseArgs_cons.
Qed.

End Turns.

(* ===================================================================== *)
(** ** Clusters and the names they stand for *)

Lemma short_token c s :
  Ascii.eqb c hyphen = false ->
  is_name_token (String hyphen (String c s)) = true.
Proof.
  intros Hc. unfold is_name_token. cbn [String.eqb].
  change (c =? "-")%char with (c =? hyphen)%char. rewrite Hc.
  change (hyphen =? "-")%char with true. cbn [negb andb].
  unfold startsWith, hyphen. cbn [String.prefix].
  by destruct (ascii_dec "-" "-").
Qed.

Lemma names_short_token c s :
  Ascii.eqb c hyphen = false ->
  names (String hyphen (String c s))
  = Some (map short_name (non_hyphens (String c s))).
Proof.
  intros Hc. rewrite names_short by by rewrite startsWith_hyphen2.
  rewrite (non_hyphens_cons hyphen). change (Ascii.eqb hyphen hyphen) with true.
  cbv iota. by rewrite non_hyphens_cons, Hc.
Qed.

Lemma non_hyphens_idemp s :
  non_hyphens (string_of_list_ascii (non_hyphens s)) = non_hyphens s.
Proof.
  induction s as [|c s IH]; [done|].
  rewrite non_hyphens_cons. destruct (Ascii.eqb c hyphen) eqn:Hc; [done|].
  cbn [string_of_list_ascii]. by rewrite non_hyphens_cons, Hc, IH.
Qed.

Section Clusters.

Context {A : Type}.
Variable spec : gmap string (Handler A).

(** Names given as separate tokens, none but the last an Option, are
    dispatched like the names of one token. *)
Lemma parseArgs_separate_names pre name conf rest :
  Forall (fun n => is_name_token n = true /\ names n = Some [n])
         (pre ++ [name]) ->
  Forall (fun n => is_option spec n = false) pre ->
  parseArgs spec (conf, (pre ++ [name]) ++ rest) =
    match dispatch spec (pre ++ [name]) conf rest with
    | Left msg => Returned (Left msg)
    | Right (conf', rest') => parseArgs spec (conf', rest')
    end.
Proof.
  revert conf.
  induction pre as [|n pre IH]; intros conf Htok Hopt; cbn [app].
  - apply Forall_cons in Htok as [[Ht Hn] _]. by apply parseArgs_token.
  - apply Forall_cons in Htok as [[Ht Hn] Htok].
    apply Forall_cons in Hopt as [Ho Hopt].
    rewrite (parseArgs_token _ _ _ _ _ Ht Hn). cbn [dispatch].
    unfold is_option in Ho.
    destruct (spec !! n) as [[f|g]|]; [|done..].
    by apply IH.
Qed.

(** C1, amended. When no name of the expansion of a token other than the
    last is an Option, [parseArgs] on the token followed by [rest]
    returns what it returns on the expanded names, as separate tokens,
    followed by [rest]. *)
Theorem cluster_equals_separate_names
    (conf : A) (t : string) (pre : list string) (name : string)
    (rest : list string) :
  is_name_token t = true ->
  names t = Some (pre ++ [name]) ->
  Forall (fun n => is_option spec n = false) pre ->
  parseArgs spec (conf, t :: rest)
  = parseArgs spec (conf, (pre ++ [name]) ++ rest).
Proof.
  intros Ht Hns Hopt.
  rewrite (parseArgs_token _ _ _ _ _ Ht Hns).
  symmetry. apply parseArgs_separate_names; [|done].
  by apply names_singletons with t.
Qed.

(** C8. A token made of a hyphen, a character [c] that is not a hyphen
    and any string [s] expands to the short names of the non-hyphen
    characters of [c s], in order: the hyphens inside and at the end are
    dropped.  [parseArgs] dispatches exactly those names: it returns the
    first error among them; when they are all accepted, their Options
    taking the values [vs], it returns the configuration with their
    Setters applied, and goes on behind the values; and it treats the
    token like the cluster without the hyphens. *)
Theorem names_drops_hyphens
    (c : ascii) (s : string) (conf : A) (rest : list string) :
  Ascii.eqb c hyphen = false ->
  names (String hyphen (String c s))
  = Some (map short_name (non_hyphens (String c s)))
  /\ parseArgs spec (conf, String hyphen (String c s) :: rest)
     = match dispatch spec (map short_name (non_hyphens (String c s)))
               conf rest with
       | Left msg => Returned (Left msg)
       | Right (conf', rest') => parseArgs spec (conf', rest')
       end
  /\ (forall vs fs,
        Accepts spec (map short_name (non_hyphens (String c s))) vs fs ->
        parseArgs spec (conf, String hyphen (String c s) :: vs)
        = Returned (Right (apply_setters fs conf, [])))
  /\ parseArgs spec (conf, String hyphen (String c s) :: rest)
     = parseArgs spec
         (conf,
          String hyphen (string_of_list_ascii (non_hyphens (String c s)))
            :: rest).
Proof.
  intros Hc. split; [by apply names_short_token|].
  split; [by apply parseArgs_token; [apply short_token|apply names_short_token]|].
  split.
  { intros vs fs Hacc. rewrite <- (right_id_L [] (++) vs).
    by rewrite (parseArgs_Accepts spec conf _ _ vs fs []
                  (short_token c s Hc) (names_short_token c s Hc) Hacc). }
  rewrite (parseArgs_token spec conf _ _ rest
             (short_token c s Hc) (names_short_token c s Hc)).
  rewrite non_hyphens_cons, Hc. cbn [string_of_list_ascii].
  rewrite (parseArgs_token spec conf _ _ rest
             (short_token c _ Hc) (names_short_token c _ Hc)).
  by rewrite !non_hyphens_cons, Hc, non_hyphens_idemp.
Qed.

End Clusters.

(* ===================================================================== *)
(** ** The test suite's specification: runs of the scan *)

Module ExampleFacts.

Import Example.

(** Some cases of src/test/index.js. *)
Example parse_no_arguments :
  parse [] = Returned (Right (defaultOptions, [])).
Proof. reflexivity. Qed.

Example parse_grouped :
  parse ["-ce"; "mail@example.org"]
  = Returned (Right (mkOptions true (Some "mail@example.org") [], [])).
Proof. vm_compute. reflexivity. Qed.

Example parse_word_then_positional :
  parse ["--word"; "foo"; "bar"]
  = Returned (Right (mkOptions false None ["foo"], ["bar"])).
Proof. vm_compute. reflexivity. Qed.

Example parse_grouped_option_first :
  parse ["-ec"] = Returned (Left "-e requires a value").
Proof. vm_compute. reflexivity. Qed.

Example parse_separate_option_first :
  parse ["-e"; "-c"]
  = Returned (Left (show "-c" +:+ " is not a valid email address")).
Proof. vm_compute. reflexivity. Qed.

Example parse_positionals_keep_separator :
  parse ["foo"; "bar"; "baz"; "--"]
  = Returned (Right (defaultOptions, ["foo"; "bar"; "baz"; "--"])).
Proof. vm_compute. reflexivity. Qed.

Example parse_lone_dash :
  parse ["-"] = Returned (Left "- is not a valid flag or option name").
Proof. vm_compute. reflexivity. Qed.

Example parse_unrecognized_in_cluster :
  parse ["-cd"] = Returned (Left "-d is unrecognized").
Proof. vm_compute. reflexivity. Qed.

Example parse_missing_value :
  parse ["--email"] = Returned (Left "--email requires a value").
Proof. vm_compute. reflexivity. Qed.

Example parse_rejected_value :
  parse ["--email"; "xxx"]
  = Returned (Left (show "xxx" +:+ " is not a valid email address")).
Proof. vm_compute. reflexivity. Qed.

Example parse_after_separator :
  parse ["--"; "-"; "--"; "---"]
  = Returned (Right (defaultOptions, ["-"; "--"; "---"])).
Proof. vm_compute. reflexivity. Qed.

Example names_interior_hyphen : names "-a-b" = Some ["-a"; "-b"].
Proof. reflexivity. Qed.

Example names_trailing_hyphen : names "-x-" = Some ["-x"].
Proof. reflexivity. Qed.

Lemma Accepts_color : Accepts updaters ["--color"] [] [fun o => mkOptions true (email o) (words o)].
Proof. eapply Accepts_flag; [reflexivity|constructor]. Qed.

Lemma Accepts_c : Accepts updaters ["-c"] [] [fun o => mkOptions true (email o) (words o)].
Proof. eapply Accepts_flag; [reflexivity|constructor]. Qed.

Lemma Accepts_w value :
  Accepts updaters ["-w"] [value]
    [fun o => mkOptions (color o) (email o) (words o ++ [value])].
Proof. eapply Accepts_option; [reflexivity|reflexivity|constructor]. Qed.

Lemma Accepts_ww v1 v2 :
  Accepts updaters ["-w"; "-w"] [v1; v2]
    [fun o => mkOptions (color o) (email o) (words o ++ [v1]);
     fun o => mkOptions (color o) (email o) (words o ++ [v2])].
Proof.
  eapply Accepts_option; [reflexivity|reflexivity|]. apply Accepts_w.
Qed.

(** The scan goes through [--color -w foo]. *)
Lemma Scans_color_w :
  Scans updaters defaultOptions ["--color"; "-w"; "foo"]
    (mkOptions true None ["foo"]).
Proof.
  apply (Scans_token updaters defaultOptions "--color" ["--color"] []
           _ ["-w"; "foo"] _ eq_refl eq_refl Accepts_color).
  apply (Scans_token updaters _ "-w" ["-w"] ["foo"]
           _ [] _ eq_refl eq_refl (Accepts_w "foo")).
  apply Scans_nil.
Qed.

End ExampleFacts.

(* ===================================================================== *)
(** ** The claims at concrete arguments *)

(** C1 as stated fails: [-ec] followed by an address sets the address and
    the color, whereas [-e], [-c] as separate tokens hand [-c] to the
    Validator of [-e], which rejects it. *)
Lemma cluster_differs_from_separate_names :
  is_name_token "-ec" = true
  /\ names "-ec" = Some ["-e"; "-c"]
  /\ Example.parse ("-ec" :: ["mail@example.org"])
     = Returned (Right (Example.mkOptions true (Some "mail@example.org") [], []))
  /\ Example.parse (["-e"; "-c"] ++ ["mail@example.org"])
     = Returned (Left (Example.show "-c" +:+ " is not a valid email address"))
  /\ Example.parse ("-ec" :: ["mail@example.org"])
     <> Example.parse (["-e"; "-c"] ++ ["mail@example.org"]).
Proof.
  repeat split; try (vm_compute; reflexivity). vm_compute. discriminate.
Qed.

Lemma cluster_equals_separate_names_witness :
  Example.parse ("-ce" :: ["mail@example.org"])
  = Example.parse ((["-c"] ++ ["-e"]) ++ ["mail@example.org"]).
Proof.
  apply (cluster_equals_separate_names Example.updaters Example.defaultOptions
           "-ce" ["-c"] "-e" ["mail@example.org"]).
  - reflexivity.
  - reflexivity.
  - repeat constructor.
Defined.

(** C2 as stated fails: a positional argument in [xs] ends the scan, and
    the separator and [ys] are returned behind it. *)
Lemma separator_behind_positional_not_reached :
  Example.parse (["foo"] ++ ["--"] ++ ["bar"])
  = Returned (Right (Example.defaultOptions, ["foo"; "--"; "bar"]))
  /\ ~ exists conf,
         Example.parse (["foo"] ++ ["--"] ++ ["bar"])
         = Returned (Right (conf, ["bar"])).
Proof.
  split; [vm_compute; reflexivity|]. intros [conf H].
  vm_compute in H. discriminate.
Qed.

Lemma separator_after_scanned_prefix_witness :
  Example.parse (["--color"; "-w"; "foo"] ++ ["--"] ++ ["--"; "-"; "-c"])
  = Returned (Right (Example.mkOptions true None ["foo"], ["--"; "-"; "-c"])).
Proof.
  apply (separator_after_scanned_prefix Example.updaters).
  exact ExampleFacts.Scans_color_w.
Defined.

Lemma cluster_options_consume_in_order_witness :
  Example.parse ("-ww" :: ["foo"; "bar"])
  = Returned (Right (Example.mkOptions false None ["foo"; "bar"], []))
  /\ (forall p more,
        startsWith p "-" = false ->
        Example.parse ("-ww" :: ["foo"; "bar"] ++ p :: more)
        = Returned (Right (Example.mkOptions false None ["foo"; "bar"],
                           p :: more)))
  /\ Example.parse ("-ww" :: ["foo"; "bar"] ++ ["baz"])
     = parseArgs Example.updaters
         (Example.mkOptions false None ["foo"; "bar"], ["baz"])
  /\ length ["foo"; "bar"]
     = length (filter (fun n => is_option Example.updaters n = true)
                 ["-w"; "-w"]).
Proof.
  exact (cluster_options_consume_in_order Example.updaters
           Example.defaultOptions "-ww" ["-w"; "-w"] ["foo"; "bar"] _ ["baz"]
           eq_refl eq_refl (ExampleFacts.Accepts_ww "foo" "bar")).
Defined.

Lemma option_value_is_opaque_witness :
  Example.parse ("-cwc" :: [] ++ "--" :: ["-"; "-x"])
  = parseArgs Example.updaters
      (Example.mkOptions true None ["--"], ["-"; "-x"]).
Proof.
  exact (option_value_is_opaque Example.updaters Example.defaultOptions
           "-cwc" ["-c"] "-w" ["-c"] [] _ _ "--" ["-"; "-x"]
           eq_refl eq_refl ExampleFacts.Accepts_c eq_refl).
Defined.

Lemma first_positional_stops_scan_witness :
  Example.parse (["--color"; "-w"; "foo"] ++ "bar" :: ["--color"; "--"; "-"])
  = Returned (Right (Example.mkOptions true None ["foo"],
                     "bar" :: ["--color"; "--"; "-"])).
Proof.
  apply (first_positional_stops_scan Example.updaters).
  - exact ExampleFacts.Scans_color_w.
  - reflexivity.
Defined.

Lemma names_drops_hyphens_witness :
  names "-c-w-" = Some ["-c"; "-w"]
  /\ Example.parse ("-c-w-" :: ["foo"; "bar"])
     = Returned (Right (Example.mkOptions true None ["foo"], ["bar"]))
  /\ (forall vs fs,
        Accepts Example.updaters ["-c"; "-w"] vs fs ->
        Example.parse ("-c-w-" :: vs)
        = Returned (Right (apply_setters fs Example.defaultOptions, [])))
  /\ Example.parse ("-c-w-" :: ["foo"; "bar"])
     = Example.parse ("-cw" :: ["foo"; "bar"]).
Proof.
  apply (names_drops_hyphens Example.updaters "c"%char "-w-"
           Example.defaultOptions ["foo"; "bar"]).
  reflexivity.
Defined.

Lemma positionals_are_a_suffix_witness :
  (exists pre, ["--word"; "foo"; "bar"; "--"] = pre ++ ["bar"; "--"])
  /\ exists xs,
       Scans Example.updaters Example.defaultOptions xs
         (Example.mkOptions false None ["foo"])
       /\ stops_well ["--word"; "foo"; "bar"; "--"] xs ["bar"; "--"].
Proof.
  apply (positionals_are_a_suffix Example.updaters).
  vm_compute. reflexivity.
Defined.

Lemma empty_string_is_positional_witness :
  Example.parse (["--color"; "-w"; "foo"] ++ "" :: ["-c"])
  = Returned (Right (Example.mkOptions true None ["foo"], "" :: ["-c"])).
Proof.
  apply (empty_string_is_positional Example.updaters).
  exact ExampleFacts.Scans_color_w.
Defined.


(* ===================================================================== *)
(** ** More on [names] *)

(** X1. [names] gives [null] on the empty string and on the lone dash, and on
    no other string. *)
Theorem names_null_iff (t : string) :
  names t = None <-> t = "" \/ t = "-".
Proof.
  split; [|by intros [-> | ->]].
  intros Hn. destruct (startsWith t "--") eqn:Hl.
  { by rewrite names_long in Hn. }
  rewrite names_short in Hn by done.
  assert (non_hyphens t = []) as Hnil.
  { destruct (non_hyphens t); [done|by cbn in Hn]. }
  destruct t as [|c s]; [by left|]. right.
  rewrite non_hyphens_cons in Hnil.
  destruct (Ascii.eqb c hyphen) eqn:Hc; [|done].
  apply Ascii.eqb_eq in Hc as ->.
  destruct s as [|d s]; [done|].
  rewrite startsWith_hyphen2 in Hl.
  by rewrite non_hyphens_cons, Hl in Hnil.
Qed.

(** X2. Every name [names] produces, from any string, is a name that [names]
    leaves as it is. *)
Theorem names_expansion_fixed (t : string) (ns : list string) :
  names t = Some ns ->
  Forall (fun n => names n = Some [n]) ns.
Proof.
  intros Hns. destruct (startsWith t "--") eqn:Hl.
  - rewrite names_long in Hns by done. injection Hns as <-.
    constructor; [by apply names_long|constructor].
  - rewrite names_short in Hns by done.
    assert (ns = map short_name (non_hyphens t)) as ->.
    { destruct (map short_name _); congruence. }
    apply Forall_forall. intros n (d & -> & Hd)%list_elem_of_fmap.
    apply short_name_token.
    unfold non_hyphens in Hd. by apply list_elem_of_filter in Hd as [? _].
Qed.

Lemma names_expansion_fixed_witness :
  Forall (fun n => names n = Some [n]) ["-x"; "-y"; "-z"].
Proof.
  apply (names_expansion_fixed "-x-yz-"). reflexivity.
Defined.

(* ===================================================================== *)
(** ** The configuration never steers the scan *)

Section Fold.

Context {A : Type}.
Variable spec : gmap string (Handler A).

Lemma apply_setters_app (fs1 fs2 : list (Setter A)) conf :
  apply_setters (fs1 ++ fs2) conf = apply_setters fs2 (apply_setters fs1 conf).
Proof. unfold apply_setters. by rewrite foldl_app. Qed.

Lemma dispatch_any_conf ns rest :
  (exists msg, forall conf, dispatch spec ns conf rest = Left msg)
  \/ (exists vs fs rest',
        Accepts spec ns vs fs /\ rest = vs ++ rest'
        /\ forall conf,
             dispatch spec ns conf rest = Right (apply_setters fs conf, rest')).
Proof.
  revert rest. induction ns as [|name ns IH]; intros rest.
  { right. exists [], [], rest. by repeat split; [constructor|..]. }
  cbn [dispatch]. destruct (spec !! name) as [[f|g]|] eqn:Hn.
  - destruct (IH rest) as [[msg Hm]|(vs & fs & rest' & Hacc & -> & Hr)].
    + left. by exists msg.
    + right. exists vs, (f :: fs), rest'.
      split; [by econstructor|]. split; [done|]. intros conf. apply Hr.
  - destruct rest as [|v rest]; [left; by eexists|].
    destruct (g v) as [msg|f] eqn:Hg; [left; by eexists|].
    destruct (IH rest) as [[msg Hm]|(vs & fs & rest' & Hacc & -> & Hr)].
    + left. by exists msg.
    + right. exists (v :: vs), (f :: fs), rest'.
      split; [by eapply Accepts_option|]. split; [done|]. intros conf. apply Hr.
  - left. by eexists.
Qed.

(** X3. Whether [parseArgs] fails, with which message, and which positional
    arguments it returns depend on the specification and the arguments
    only; on success the configuration returned is the initial one with a
    list of Setters applied in order, and that list too depends on the
    specification and the arguments only. *)
Theorem parseArgs_is_a_fold (args : list string) :
  (exists msg, forall init : A,
      parseArgs spec (init, args) = Returned (Left msg))
  \/ (exists (fs : list (Setter A)) pos, forall init : A,
        parseArgs spec (init, args)
        = Returned (Right (apply_setters fs init, pos))).
Proof.
  remember (length args) as n eqn:Hn. revert args Hn.
  induction n as [n IH] using lt_wf_ind. intros [|t rest] Hn.
  { right. by exists [], []. }
  destruct (String.eqb t "-") eqn:H1.
  { left. eexists. intros init. by rewrite parseArgs_cons, H1. }
  destruct (String.eqb t "--") eqn:H2.
  { right. exists [], rest. intros init. by rewrite parseArgs_cons, H1, H2. }
  destruct (startsWith t "-") eqn:H3.
  2:{ right. exists [], (t :: rest). intros init.
      by rewrite parseArgs_cons, H1, H2, H3. }
  assert (is_name_token t = true) as Ht
      by (unfold is_name_token; by rewrite H1, H2, H3).
  destruct (names_is_Some t Ht) as (name & ns & Hns).
  destruct (dispatch_any_conf (name :: ns) rest)
    as [[msg Hm]|(vs & fs & rest' & Hacc & -> & Hr)].
  { left. exists msg. intros init.
    by rewrite (parseArgs_token _ _ _ _ _ Ht Hns), Hm. }
  destruct (IH (length rest')) with (args := rest')
    as [[msg Hm]|(fs' & pos & Hp)]; [|done|..].
  { subst n. cbn [length]. rewrite length_app. lia. }
  - left. exists msg. intros init.
    by rewrite (parseArgs_token _ _ _ _ _ Ht Hns), Hr, Hm.
  - right. exists (fs ++ fs'), pos. intros init.
    by rewrite (parseArgs_token _ _ _ _ _ Ht Hns), Hr, Hp, apply_setters_app.
Qed.

End Fold.

(* ===================================================================== *)
(** ** Which keys of the specification matter *)

Section Keys.

Context {A : Type}.

Lemma dispatch_agree (spec1 spec2 : gmap string (Handler A)) ns conf rest :
  Forall (fun n => spec1 !! n = spec2 !! n) ns ->
  dispatch spec1 ns conf rest = dispatch spec2 ns conf rest.
Proof.
  revert conf rest. induction ns as [|name ns IH]; intros conf rest Hag; [done|].
  apply Forall_cons in Hag as [Hn Hag]. cbn [dispatch]. rewrite <- Hn.
  destruct (spec1 !! name) as [[f|g]|]; [by apply IH| |done].
  destruct rest as [|v rest]; [done|].
  destruct (g v); [done|by apply IH].
Qed.

(** Two specifications that agree on every name [names] can produce
    make [parseArgs] return the same. *)
Lemma parseArgs_agree (spec1 spec2 : gmap string (Handler A)) init args :
  (forall n, is_name_token n = true -> names n = Some [n] ->
             spec1 !! n = spec2 !! n) ->
  parseArgs spec1 (init, args) = parseArgs spec2 (init, args).
Proof.
  intros Hag.
  assert (forall t ns conf rest,
             is_name_token t = true -> names t = Some ns ->
             dispatch spec2 ns conf rest = dispatch spec1 ns conf rest) as Hd.
  { intros t ns conf rest Ht Hns. symmetry. apply dispatch_agree.
    eapply Forall_impl; [by apply names_singletons with t|].
    intros n [? ?]. by apply Hag. }
  symmetry.
  apply (parseArgs_scan_ind spec1
           (fun conf args c => parseArgs spec2 (conf, args) = c)).
  - done.
  - intros. by rewrite parseArgs_cons.
  - intros. by rewrite parseArgs_cons.
  - intros conf t rest Ht. rewrite parseArgs_cons, Ht.
    by destruct (startsWith_hyphen_false t Ht) as [-> ->].
  - intros conf t pre name post vs fs rest msg Ht Hns Hacc Herr.
    by rewrite (parseArgs_token _ _ _ _ _ Ht Hns), (Hd _ _ _ _ Ht Hns),
      (dispatch_Left _ _ _ _ _ _ _ _ _ Hacc Herr).
  - intros conf t ns vs fs rest Ht Hns Hacc IH.
    by rewrite (parseArgs_token _ _ _ _ _ Ht Hns), (Hd _ _ _ _ Ht Hns),
      (dispatch_Accepts _ _ _ _ _ _ Hacc).
Qed.

(** X4. A key that is not a name token, or that [names] does not leave as it
    is (a cluster such as [-ab], a word without hyphen, the lone dash, the
    separator), is never looked up: removing it from the specification or
    binding it to any handler changes nothing. *)
Theorem dead_key_is_never_matched
    (spec : gmap string (Handler A)) (k : string) (h : Handler A)
    (init : A) (args : list string) :
  is_name_token k = false \/ names k <> Some [k] ->
  parseArgs (delete k spec) (init, args) = parseArgs spec (init, args)
  /\ parseArgs (<[k := h]> spec) (init, args) = parseArgs spec (init, args).
Proof.
  intros Hk.
  assert (forall n, is_name_token n = true -> names n = Some [n] -> n <> k)
    as Hne.
  { intros n H1 H2 ->. destruct Hk; congruence. }
  split; apply parseArgs_agree; intros n H1 H2.
  - apply lookup_delete_ne. by apply not_eq_sym, Hne.
  - apply lookup_insert_ne. by apply not_eq_sym, Hne.
Qed.

Lemma Accepts_weaken (spec spec' : gmap string (Handler A)) ns vs fs :
  spec ⊆ spec' -> Accepts spec ns vs fs -> Accepts spec' ns vs fs.
Proof.
  intros Hsub. induction 1 as [|? ? ? ? ? Hn|? ? ? ? ? ? ? Hn].
  - constructor.
  - eapply Accepts_flag; [|done]. by eapply lookup_weaken.
  - eapply Accepts_option; [|done..]. by eapply lookup_weaken.
Qed.

(** X5. Adding entries to the specification keeps every successful parse:
    what [parseArgs] returns with [spec], when it is no error, it returns
    with any specification that extends [spec]. *)
Theorem extended_spec_keeps_success
    (spec spec' : gmap string (Handler A)) (init : A) (args : list string)
    (r : A * list string) :
  spec ⊆ spec' ->
  parseArgs spec (init, args) = Returned (Right r) ->
  parseArgs spec' (init, args) = Returned (Right r).
Proof.
  intros Hsub. revert r.
  apply (parseArgs_scan_ind spec
           (fun conf args c => forall r,
              c = Returned (Right r) ->
              parseArgs spec' (conf, args) = Returned (Right r))).
  - by intros conf r [= <-].
  - done.
  - intros conf rest r [= <-]. by rewrite parseArgs_cons.
  - intros conf t rest Ht r [= <-]. rewrite parseArgs_cons, Ht.
    by destruct (startsWith_hyphen_false t Ht) as [-> ->].
  - done.
  - intros conf t ns vs fs rest Ht Hns Hacc IH r Hr.
    rewrite (parseArgs_Accepts spec' _ _ _ _ _ _ Ht Hns
               (Accepts_weaken _ _ _ _ _ Hsub Hacc)).
    by apply IH.
Qed.

End Keys.

(* ===================================================================== *)
(** ** Appending arguments *)

Section Append.

Context {A : Type}.
Variable spec : gmap string (Handler A).

Lemma parseArgs_Right_inv init args conf pos :
  parseArgs spec (init, args) = Returned (Right (conf, pos)) ->
  exists xs, Scans spec init xs conf /\ stops_well args xs pos.
Proof.
  revert conf pos.
  apply (parseArgs_scan_ind spec
           (fun init args c => forall conf pos,
              c = Returned (Right (conf, pos)) ->
              exists xs, Scans spec init xs conf /\ stops_well args xs pos)).
  - intros c ? ? [= <- <-]. exists []. split; [constructor|by left].
  - done.
  - intros c rest ? ? [= <- <-]. exists []. split; [constructor|].
    right; by left.
  - intros c t rest Ht ? ? [= <- <-]. exists []. split; [constructor|].
    right; right. split; [done|]. by exists t, rest.
  - done.
  - intros c t ns vs fs rest Ht Hns Hacc IH conf pos Hr.
    destruct (IH _ _ Hr) as (xs & Hxs & Hcase).
    exists (t :: vs ++ xs). split; [by econstructor|].
    unfold stops_well. cbn [app]. rewrite <- !(assoc_L (++)).
    destruct Hcase as [[-> ->]|[->|[-> ?]]]; auto.
Qed.

Lemma parseArgs_Left_inv init args msg :
  parseArgs spec (init, args) = Returned (Left msg) ->
  first_error spec init args msg.
Proof.
  revert msg.
  apply (parseArgs_scan_ind spec
           (fun init args c => forall msg,
              c = Returned (Left msg) -> first_error spec init args msg)).
  - done.
  - intros c rest ? [= <-]. exists [], c. split; [constructor|].
    left. by exists rest.
  - done.
  - done.
  - intros c t pre name post vs fs rest m Ht Hns Hacc Herr ? [= <-].
    exists [], c. split; [constructor|]. right.
    by exists t, pre, name, post, vs, fs, rest.
  - intros c t ns vs fs rest Ht Hns Hacc IH m Hr.
    destruct (IH _ Hr) as (xs & c' & Hxs & Hcase).
    exists (t :: vs ++ xs), c'. split; [by econstructor|].
    destruct Hcase as [(r & -> & ->)|(t' & pre & name & post & vs' & fs'
                                       & r & -> & ? & ? & ? & ?)].
    + left. exists r. cbn [app]. by rewrite <- (assoc_L (++)).
    + right. exists t', pre, name, post, vs', fs', r.
      cbn [app]. by rewrite <- (assoc_L (++)).
Qed.

(** X6. When [parseArgs] on [xs] succeeds and leaves no positional argument,
    either [xs] ends with the separator that stopped the scan, and
    arguments appended to [xs] come back untouched as the positional
    arguments; or the scan went through all of [xs], and [parseArgs] on
    [xs ++ ys] is [parseArgs] on [ys] started with the configuration
    reached. *)
Theorem append_after_full_parse
    (init conf : A) (xs ys : list string) :
  parseArgs spec (init, xs) = Returned (Right (conf, [])) ->
  ((exists xs', xs = xs' ++ ["--"])
   /\ parseArgs spec (init, xs ++ ys) = Returned (Right (conf, ys)))
  \/ parseArgs spec (init, xs ++ ys) = parseArgs spec (conf, ys).
Proof.
  intros (xs' & Hxs & [[-> _]|[->|[Heq (t & rest & ? & _)]]])%parseArgs_Right_inv.
  - right. by apply parseArgs_Scans.
  - left. split; [by exists xs'|]. rewrite <- (assoc_L (++)).
    rewrite (parseArgs_Scans _ _ _ _ _ Hxs). cbn [app].
    by rewrite parseArgs_cons.
  - done.
Qed.

(** X7. When [parseArgs] on [xs] succeeds with a positional argument, the
    arguments appended to [xs] are appended to the positional arguments
    and nothing else changes. *)
Theorem append_after_positional
    (init conf : A) (xs pos ys : list string) :
  parseArgs spec (init, xs) = Returned (Right (conf, pos)) ->
  pos <> [] ->
  parseArgs spec (init, xs ++ ys) = Returned (Right (conf, pos ++ ys)).
Proof.
  intros (xs' & Hxs & [[_ ->]|[->|[-> (t & rest & -> & Ht)]]])%parseArgs_Right_inv
    Hpos; [done|..];
    rewrite <- (assoc_L (++)), (parseArgs_Scans _ _ _ _ _ Hxs); cbn [app].
  - by rewrite parseArgs_cons.
  - rewrite parseArgs_cons, Ht.
    by destruct (startsWith_hyphen_false t Ht) as [-> ->].
Qed.

(** X8. An error is not changed by appending arguments, unless it is the
    error of an Option that found no argument to take as its value. *)
Theorem error_stable_under_append
    (init : A) (xs ys : list string) (msg : string) :
  parseArgs spec (init, xs) = Returned (Left msg) ->
  parseArgs spec (init, xs ++ ys) = Returned (Left msg)
  \/ exists name, is_option spec name = true
                  /\ msg = name +:+ " requires a value".
Proof.
  intros (xs' & conf & Hxs & Hcase)%parseArgs_Left_inv.
  destruct Hcase as [(r & -> & ->)|(t & pre & name & post & vs & fs
                                     & r & -> & Ht & Hns & Hacc & Herr)].
  - left. rewrite <- (assoc_L (++)), (parseArgs_Scans _ _ _ _ _ Hxs).
    cbn [app]. by rewrite parseArgs_cons.
  - destruct Herr as [[Hn ->]|[(g & Hn & -> & ->)|(g & v & r' & Hn & -> & Hg)]].
    + left. rewrite <- (assoc_L (++)), (parseArgs_Scans _ _ _ _ _ Hxs).
      cbn [app]. rewrite <- (assoc_L (++)).
      rewrite (parseArgs_token _ _ _ _ _ Ht Hns).
      rewrite (dispatch_Left spec pre name post vs fs conf (r ++ ys)
                 (name +:+ " is unrecognized") Hacc); [done|]. by left.
    + right. exists name. split; [|done]. unfold is_option, Option in *.
      by rewrite Hn.
    + left. rewrite <- (assoc_L (++)), (parseArgs_Scans _ _ _ _ _ Hxs).
      cbn [app]. rewrite <- (assoc_L (++)).
      rewrite (parseArgs_token _ _ _ _ _ Ht Hns).
      rewrite (dispatch_Left spec pre name post vs fs conf
                 ((v :: r') ++ ys) msg Hacc); [done|].
      right; right. by exists g, v, (r' ++ ys).
Qed.

(** X9. A token that starts with two hyphens and is not the separator is
    looked up whole, whatever follows the two hyphens (more hyphens
    included): unrecognized when absent, a Flag applied on the spot, an
    Option given the next argument. *)
Theorem long_name_is_looked_up_whole
    (conf : A) (t : string) (rest : list string) :
  startsWith t "--" = true ->
  t <> "--" ->
  parseArgs spec (conf, t :: rest) =
    match spec !! t with
    | None => Returned (Left (t +:+ " is unrecognized"))
    | Some (Left f) => parseArgs spec (f conf, rest)
    | Some (Right g) =>
        match rest with
        | [] => Returned (Left (t +:+ " requires a value"))
        | value :: rest' =>
            match g value with
            | Left msg => Returned (Left msg)
            | Right f => parseArgs spec (f conf, rest')
            end
        end
    end.
Proof.
  intros Hl Hsep.
  assert (is_name_token t = true) as Ht.
  { assert (exists s, t = String hyphen (String hyphen s)) as [s ->].
    { unfold startsWith in Hl.
      destruct t as [|c [|d s]]; cbn [String.prefix] in Hl; [done|..].
      - by destruct (ascii_dec "-" c).
      - destruct (ascii_dec "-" c) as [<-|]; [|done].
        destruct (ascii_dec "-" d) as [<-|]; [|done]. by exists s. }
    destruct s as [|e s]; [done|].
    unfold is_name_token, startsWith, hyphen. cbn [String.eqb String.prefix].
    change ("-" =? "-")%char with true. cbv iota.
    by destruct (ascii_dec "-" "-"). }
  rewrite (parseArgs_token _ _ _ _ _ Ht (names_long t Hl)). cbn [dispatch].
  destruct (spec !! t) as [[f|g]|]; [done| |done].
  destruct rest as [|v rest]; [done|]. by destruct (g v).
Qed.

End Append.

(* ===================================================================== *)
(** ** The handlers of the test suite *)

Lemma updaters_c : Example.updaters !! "-c" = Some Example.color_handler.
Proof. reflexivity. Qed.

Lemma updaters_e : Example.updaters !! "-e" = Some Example.email_handler.
Proof. reflexivity. Qed.

Lemma updaters_w : Example.updaters !! "-w" = Some Example.words_handler.
Proof. reflexivity. Qed.

Lemma parse_c_step o rest :
  parseArgs Example.updaters (o, "-c" :: rest)
  = parseArgs Example.updaters
      (Example.mkOptions true (Example.email o) (Example.words o), rest).
Proof.
  rewrite (parseArgs_token Example.updaters o "-c" ["-c"] rest eq_refl eq_refl).
  cbn [dispatch]. by rewrite updaters_c.
Qed.

Lemma parse_w_step o w rest :
  parseArgs Example.updaters (o, "-w" :: w :: rest)
  = parseArgs Example.updaters
      (Example.mkOptions (Example.color o) (Example.email o)
         (Example.words o ++ [w]), rest).
Proof.
  rewrite (parseArgs_token Example.updaters o "-w" ["-w"] (w :: rest)
             eq_refl eq_refl).
  cbn [dispatch]. by rewrite updaters_w.
Qed.

(** X10. The [-w] option of the test suite accumulates: any list of values,
    each given after its own [-w], is appended in order to the words of
    the configuration, whatever the values look like.  [parseArgs] on
    these arguments alone returns that configuration and no positional
    argument; with more arguments the scan goes on behind the last
    value. *)
Theorem words_accumulate_in_order
    (ws : list string) (o : Example.Options) (rest : list string) :
  parseArgs Example.updaters (o, flat_map (fun w => ["-w"; w]) ws)
  = Returned (Right (Example.mkOptions (Example.color o) (Example.email o)
                       (Example.words o ++ ws), []))
  /\ parseArgs Example.updaters (o, flat_map (fun w => ["-w"; w]) ws ++ rest)
     = parseArgs Example.updaters
         (Example.mkOptions (Example.color o) (Example.email o)
            (Example.words o ++ ws), rest).
Proof.
  assert (forall rest o,
    parseArgs Example.updaters (o, flat_map (fun w => ["-w"; w]) ws ++ rest)
    = parseArgs Example.updaters
        (Example.mkOptions (Example.color o) (Example.email o)
           (Example.words o ++ ws), rest)) as Hgen.
  { clear. intros rest. induction ws as [|w ws IH]; intros o.
    - cbn [flat_map app]. rewrite (right_id_L [] (++)). by destruct o.
    - cbn [flat_map app]. rewrite parse_w_step, IH.
      cbn [Example.color Example.email Example.words].
      by rewrite <- (assoc_L (++)). }
  split; [|apply Hgen].
  rewrite <- (right_id_L [] (++) (flat_map _ ws)). by rewrite Hgen.
Qed.

Lemma words_accumulate_in_order_witness :
  Example.parse (flat_map (fun w => ["-w"; w]) ["foo"; "--"; "-c"])
  = Returned (Right (Example.mkOptions false None ["foo"; "--"; "-c"], []))
  /\ Example.parse (flat_map (fun w => ["-w"; w]) ["foo"; "--"; "-c"] ++ ["bar"])
     = Returned (Right (Example.mkOptions false None ["foo"; "--"; "-c"],
                        ["bar"])).
Proof.
  exact (words_accumulate_in_order ["foo"; "--"; "-c"]
           Example.defaultOptions ["bar"]).
Defined.

(** X11. The [-c] flag of the test suite is idempotent: given once or many
    times in a row, it sets the color to true and changes nothing else.
    [parseArgs] on these arguments alone returns that configuration and
    no positional argument; with more arguments the scan goes on behind
    them. *)
Theorem color_flag_idempotent
    (n : nat) (o : Example.Options) (rest : list string) :
  parseArgs Example.updaters (o, replicate (S n) "-c")
  = Returned (Right (Example.mkOptions true (Example.email o)
                       (Example.words o), []))
  /\ parseArgs Example.updaters (o, replicate (S n) "-c" ++ rest)
     = parseArgs Example.updaters
         (Example.mkOptions true (Example.email o) (Example.words o), rest).
Proof.
  assert (forall rest o,
    parseArgs Example.updaters (o, replicate (S n) "-c" ++ rest)
    = parseArgs Example.updaters
        (Example.mkOptions true (Example.email o) (Example.words o), rest))
    as Hgen.
  { clear. intros rest. induction n as [|n IH]; intros o.
    - cbn [replicate app]. apply parse_c_step.
    - change (replicate (S (S n)) "-c" ++ rest)
        with ("-c" :: replicate (S n) "-c" ++ rest).
      by rewrite parse_c_step, IH. }
  split; [|apply Hgen].
  rewrite <- (right_id_L [] (++) (replicate _ _)). by rewrite Hgen.
Qed.

Lemma color_flag_idempotent_witness :
  Example.parse (replicate 5 "-c")
  = Returned (Right (Example.mkOptions true None [], []))
  /\ Example.parse (replicate 5 "-c" ++ ["foo"])
     = Returned (Right (Example.mkOptions true None [], ["foo"])).
Proof.
  exact (color_flag_idempotent 4 Example.defaultOptions ["foo"]).
Defined.

(** X12. The [-e] option of the test suite sets the address exactly when the
    value contains an at sign. *)
Theorem email_accepted_iff_at_sign (e : string) :
  Example.parse ["-e"; e]
  = Returned (Right (Example.mkOptions false (Some e) [], []))
  <-> Example.includes "@" e = true.
Proof.
  unfold Example.parse, Pair.
  rewrite (parseArgs_token Example.updaters _ "-e" ["-e"] [e] eq_refl eq_refl).
  cbn [dispatch]. rewrite updaters_e.
  unfold Example.email_handler, Option.
  destruct (Example.includes "@" e); split; done.
Qed.

(* ===================================================================== *)
(** ** Further properties at concrete arguments *)

Lemma dead_key_is_never_matched_witness :
  parseArgs (delete "-ce" Example.updaters)
    (Example.defaultOptions, ["-ce"; "mail@example.org"])
  = Example.parse ["-ce"; "mail@example.org"]
  /\ parseArgs (<["-ce" := Example.words_handler]> Example.updaters)
       (Example.defaultOptions, ["-ce"; "mail@example.org"])
     = Example.parse ["-ce"; "mail@example.org"].
Proof.
  apply (dead_key_is_never_matched Example.updaters "-ce").
  right. intros H. vm_compute in H. discriminate H.
Defined.

Lemma extended_spec_keeps_success_witness :
  parseArgs (<["-z" := Example.color_handler]> Example.updaters)
    (Example.defaultOptions, ["-cw"; "foo"; "bar"])
  = Returned (Right (Example.mkOptions true None ["foo"], ["bar"])).
Proof.
  apply (extended_spec_keeps_success Example.updaters).
  - apply insert_subseteq. reflexivity.
  - vm_compute. reflexivity.
Defined.

Lemma append_after_full_parse_witness :
  ((exists xs', ["--color"] = xs' ++ ["--"])
   /\ Example.parse (["--color"] ++ ["-w"; "foo"])
      = Returned (Right (Example.mkOptions true None [], ["-w"; "foo"])))
  \/ Example.parse (["--color"] ++ ["-w"; "foo"])
     = parseArgs Example.updaters
         (Example.mkOptions true None [], ["-w"; "foo"]).
Proof.
  apply (append_after_full_parse Example.updaters).
  vm_compute. reflexivity.
Defined.

Lemma append_after_positional_witness :
  Example.parse (["--color"; "foo"] ++ ["--"; "-c"])
  = Returned (Right (Example.mkOptions true None [], ["foo"] ++ ["--"; "-c"])).
Proof.
  apply (append_after_positional Example.updaters).
  - vm_compute. reflexivity.
  - discriminate.
Defined.

Lemma error_stable_under_append_witness :
  Example.parse (["-cd"] ++ ["-c"; "foo"])
  = Returned (Left "-d is unrecognized")
  \/ exists name, is_option Example.updaters name = true
                  /\ "-d is unrecognized" = name +:+ " requires a value".
Proof.
  apply (error_stable_under_append Example.updaters).
  vm_compute. reflexivity.
Defined.

Lemma long_name_is_looked_up_whole_witness :
  Example.parse ("--word" :: ["--"; "foo"])
  = parseArgs Example.updaters
      (Example.mkOptions false None ["--"], ["foo"]).
Proof.
  apply (long_name_is_looked_up_whole Example.updaters
           Example.defaultOptions "--word" ["--"; "foo"]).
  - reflexivity.
  - discriminate.
Defined.
